(** * Extended Euclidean algorithm (math/extended_euclid_algorithm.cpp)

  A shallow embedding of the two routines of namespace [math]:
  the iterative [extendedEuclid_1] and the recursive [extendedEuclid].

  Machine integers are modelled as [Z]:
  - a [uint64_t] is a [Z] in [0, 2^64), every unsigned operation is
    followed by an explicit reduction modulo [2^64];
  - an [int64_t] is a [Z] in [-2^63, 2^63), the conversion from
    [uint64_t] is the two's complement reinterpretation.

  The three out-parameters [GCD], [x], [y] become a returned triple.
  The loop and the recursion are driven by a fuel argument; the
  section on termination shows that a fuel logarithmic in the smaller
  argument always suffices, and the fuel-free entry points use it. *)

From Stdlib Require Import ZArith Lia Zdiv Morphisms Setoid.

Local Open Scope Z_scope.

(** ** Fixed-width integers *)

Definition two64 : Z := 2 ^ 64.
Definition two63 : Z := 2 ^ 63.

(** Range of [uint64_t] and of [int64_t]. *)
Definition in_u64 (z : Z) : Prop := 0 <= z < two64.
Definition in_i64 (z : Z) : Prop := - two63 <= z < two63.

(** Reduction of a mathematical integer to [uint64_t]; also the
  conversion [int64_t -> uint64_t]. *)
Definition u64 (z : Z) : Z := z mod two64.

(** Conversion to [int64_t] (two's complement reinterpretation). *)
Definition i64 (z : Z) : Z := (z + two63) mod two64 - two63.

(** Unsigned 64-bit subtraction and multiplication. *)
Definition u64_sub (a b : Z) : Z := u64 (a - b).
Definition u64_mul (a b : Z) : Z := u64 (a * b).

(** Congruence modulo [2^64]: equality of [uint64_t] images. *)
Definition eqm64 (a b : Z) : Prop := u64 a = u64 b.

Infix "==" := eqm64 (at level 70, no associativity).

(** Range side conditions on literals. *)
Ltac u64_lit := unfold in_u64, two64; lia.

(** A result triple [(GCD, x, y)]. *)
Definition triple : Type := (Z * Z * Z)%type.

Definition GCD_of (t : triple) : Z := fst (fst t).

Module math.

(** [update_step(&r, &r0, quotient)]: returns the new [( *r, *r0 )]. *)
Definition update_step (r r0 quotient : Z) : Z * Z :=
  let temp := r in
  (u64_sub r0 (u64_mul quotient temp), temp).

(** The six local variables of [extendedEuclid_1]. *)
Record regs : Type := mkRegs {
  s : Z; s0 : Z;
  t : Z; t0 : Z;
  r : Z; r0 : Z
}.

(** One iteration of the body of the [while] loop.  The operands of
    [/] are unsigned, so truncating and flooring division agree. *)
Definition loop_body (st : regs) : regs :=
  let quotient := r0 st / r st in
  let '(r', r0') := update_step (r st) (r0 st) quotient in
  let '(s', s0') := update_step (s st) (s0 st) quotient in
  let '(t', t0') := update_step (t st) (t0 st) quotient in
  mkRegs s' s0' t' t0' r' r0'.

(** [while (r != 0) { ... }]; [None] when the fuel runs out. *)
Fixpoint while_loop (fuel : nat) (st : regs) : option regs :=
  match fuel with
  | O => None
  | S fuel' =>
      if r st =? 0 then Some st
      else while_loop fuel' (loop_body st)
  end.

(** [if (B > A) std::swap(A, B);] *)
Definition swap_if_greater (A B : Z) : Z * Z :=
  if B >? A then (B, A) else (A, B).

Definition extendedEuclid_1_fuel (fuel : nat) (A B : Z) : option triple :=
  let '(A, B) := swap_if_greater A B in
  match while_loop fuel (mkRegs 0 1 1 0 B A) with
  | None => None
  | Some st => Some (r0 st, i64 (s0 st), i64 (t0 st))
  end.

(** The recursive variant.  In [temp - (A / B) * ( *y )] the signed
    operands are converted to [uint64_t], the arithmetic is unsigned,
    and the result is converted back on assignment to [*y]. *)
Fixpoint extendedEuclid_fuel (fuel : nat) (A B : Z) : option triple :=
  match fuel with
  | O => None
  | S fuel' =>
      let '(A, B) := swap_if_greater A B in
      if B =? 0 then Some (A, 1, 0)
      else
        match extendedEuclid_fuel fuel' B (A mod B) with
        | None => None
        | Some (GCD, x, y) =>
            let temp := x in
            let x := y in
            let y := i64 (u64_sub (u64 temp) (u64_mul (A / B) (u64 y))) in
            Some (GCD, x, y)
        end
  end.

(** Number of loop tests (resp. nested calls) that always suffices:
    logarithmic in the smaller argument. *)
Definition depth_bound (A B : Z) : nat :=
  (2 * Z.to_nat (Z.log2 (Z.min A B)) + 3)%nat.

Definition extendedEuclid_1 (A B : Z) : option triple :=
  extendedEuclid_1_fuel (depth_bound A B) A B.

Definition extendedEuclid (A B : Z) : option triple :=
  extendedEuclid_fuel (depth_bound A B) A B.

End math.

Import math.

(** ** Predicates used in the statements *)

(** The invariant of the [while] loop of [extendedEuclid_1]: both
    remainder registers are, modulo [2^64], the combination of the
    operands by their coefficient registers. *)
Definition bezout_inv (A B : Z) (st : regs) : Prop :=
  r0 st == s0 st * A + t0 st * B /\
  r st == s st * A + t st * B.

(** The three shapes of a result on ordered operands [b <= a]: the base
    case, an exact division, and the general case with coefficients
    bounded by half of the opposite operand divided by the gcd. *)
Definition exact_shape (a b g x y : Z) : Prop :=
  (b = 0 /\ x = 1 /\ y = 0) \/
  (0 < b /\ a mod b = 0 /\ x = 0 /\ y = 1) \/
  (0 < b /\ a mod b <> 0 /\ 0 < g /\
   - b <= 2 * (g * x) <= b /\ - a <= 2 * (g * y) <= a).

(** ** Arithmetic modulo [2^64] *)

Section Wraparound.

#[global] Instance eqm64_equiv : Equivalence eqm64.
Proof. exact (eqm_setoid two64). Qed.

#[global] Instance add_eqm64 : Proper (eqm64 ==> eqm64 ==> eqm64) Z.add.
Proof. exact (Zplus_eqm two64). Qed.

#[global] Instance sub_eqm64 : Proper (eqm64 ==> eqm64 ==> eqm64) Z.sub.
Proof. exact (Zminus_eqm two64). Qed.

#[global] Instance mul_eqm64 : Proper (eqm64 ==> eqm64 ==> eqm64) Z.mul.
Proof. exact (Zmult_eqm two64). Qed.

Lemma two64_pos : 0 < two64.
Proof. reflexivity. Qed.

Lemma two64_two63 : two64 = 2 * two63.
Proof. reflexivity. Qed.

Lemma u64_range (z : Z) : in_u64 (u64 z).
Proof. unfold in_u64, u64. apply Z.mod_pos_bound, two64_pos. Qed.

Lemma u64_small (z : Z) : in_u64 z -> u64 z = z.
Proof. unfold in_u64, u64. intros H. now apply Z.mod_small. Qed.

Lemma u64_eqm (z : Z) : u64 z == z.
Proof. exact (Zmod_eqm two64 z). Qed.

Lemma i64_range (z : Z) : in_i64 (i64 z).
Proof.
  unfold in_i64, i64.
  pose proof (Z.mod_pos_bound (z + two63) two64 two64_pos).
  rewrite two64_two63 in *. lia.
Qed.

Lemma i64_eqm (z : Z) : i64 z == z.
Proof.
  unfold i64.
  replace z with (z + two63 - two63) at 2 by lia.
  apply sub_eqm64; [exact (Zmod_eqm two64 _) | reflexivity].
Qed.

Lemma i64_small (z : Z) : in_i64 z -> i64 z = z.
Proof.
  unfold in_i64, i64. intros H.
  rewrite Z.mod_small; rewrite ?two64_two63; lia.
Qed.

(** [i64] only depends on the residue modulo [2^64]. *)
Lemma i64_congr (a b : Z) : a == b -> i64 a = i64 b.
Proof.
  intros H. unfold i64. f_equal.
  apply add_eqm64; [exact H | reflexivity].
Qed.

Lemma u64_congr (a b : Z) : a == b -> u64 a = u64 b.
Proof. intros H. exact H. Qed.

Lemma u64_sub_eqm (a b : Z) : u64_sub a b == a - b.
Proof. apply u64_eqm. Qed.

Lemma u64_mul_eqm (a b : Z) : u64_mul a b == a * b.
Proof. apply u64_eqm. Qed.

End Wraparound.

(** ** The recursive variant *)

Section Recursive.

Lemma swap_if_greater_spec (A B : Z) :
  swap_if_greater A B = (Z.max A B, Z.min A B).
Proof.
  unfold swap_if_greater.
  destruct (Z.gtb_spec B A); f_equal; lia.
Qed.

Lemma swap_if_greater_comm (A B : Z) :
  swap_if_greater A B = swap_if_greater B A.
Proof. rewrite !swap_if_greater_spec. f_equal; lia. Qed.

Lemma swap_if_greater_ordered (A B : Z) :
  B <= A -> swap_if_greater A B = (A, B).
Proof. intros H. rewrite swap_if_greater_spec. f_equal; lia. Qed.

Lemma gcd_max_min (A B : Z) : Z.gcd (Z.max A B) (Z.min A B) = Z.gcd A B.
Proof.
  destruct (Z.le_gt_cases A B).
  - rewrite Z.max_r, Z.min_l by lia. apply Z.gcd_comm.
  - rewrite Z.max_l, Z.min_r by lia. reflexivity.
Qed.

(** What the recursion returns: the gcd, coefficients in the range of
    [int64_t], and the identity against the larger-first operands. *)
Lemma extendedEuclid_fuel_spec (n : nat) :
  forall A B g x y,
    in_u64 A -> in_u64 B ->
    extendedEuclid_fuel n A B = Some (g, x, y) ->
    g = Z.gcd A B /\ in_i64 x /\ in_i64 y /\
    Z.max A B * x + Z.min A B * y == g.
Proof.
  induction n as [|n IH]; intros A B g x y HA HB; simpl; [discriminate|].
  rewrite swap_if_greater_spec.
  assert (Ha : in_u64 (Z.max A B)) by (unfold in_u64 in *; lia).
  assert (Hb : in_u64 (Z.min A B)) by (unfold in_u64 in *; lia).
  assert (Hba : Z.min A B <= Z.max A B) by lia.
  rewrite <- (gcd_max_min A B).
  generalize dependent (Z.max A B). generalize dependent (Z.min A B).
  intros b Hb a Ha Hba.
  destruct (Z.eqb_spec b 0) as [->|Hnz].
  - intros [= <- <- <-]. unfold in_u64 in Ha.
    rewrite Z.gcd_0_r, Z.abs_eq by lia.
    repeat split; try (unfold in_i64, two63; lia).
    now rewrite Z.mul_1_r, Z.mul_0_r, Z.add_0_r.
  - assert (Hpos : 0 < b) by (unfold in_u64 in Hb; lia).
    pose proof (Z.mod_pos_bound a b Hpos) as Hm.
    destruct (extendedEuclid_fuel n b (a mod b)) as [[[g' x'] y']|] eqn:E;
      [|discriminate].
    intros [= <- <- <-].
    apply IH in E; [| exact Hb | unfold in_u64 in *; lia].
    destruct E as (Hg & Hx & Hy & Hbez).
    rewrite Z.max_l, Z.min_r in Hbez by lia.
    split; [|split; [|split]].
    + rewrite Hg, (Z.gcd_comm b (a mod b)), Z.gcd_mod by lia.
      apply Z.gcd_comm.
    + exact Hy.
    + apply i64_range.
    + rewrite i64_eqm, u64_sub_eqm, u64_mul_eqm, !u64_eqm.
      rewrite <- Hbez.
      rewrite (Z.mod_eq a b) by lia.
      match goal with |- ?l == ?r => replace l with r by ring end.
      reflexivity.
Qed.

Lemma extendedEuclid_fuel_comm (n : nat) (A B : Z) :
  extendedEuclid_fuel n A B = extendedEuclid_fuel n B A.
Proof. destruct n; simpl; [reflexivity|]. now rewrite swap_if_greater_comm. Qed.

Lemma extendedEuclid_fuel_normal (n : nat) (A B : Z) :
  extendedEuclid_fuel n A B = extendedEuclid_fuel n (Z.max A B) (Z.min A B).
Proof.
  destruct (Z.le_gt_cases A B).
  - rewrite Z.max_r, Z.min_l by lia. apply extendedEuclid_fuel_comm.
  - rewrite Z.max_l, Z.min_r by lia. reflexivity.
Qed.

(** Extra fuel does not change a result. *)
Lemma extendedEuclid_fuel_mono (n : nat) :
  forall A B res, extendedEuclid_fuel n A B = Some res ->
  forall m, (n <= m)%nat -> extendedEuclid_fuel m A B = Some res.
Proof.
  induction n as [|n IH]; intros A B res; simpl; [discriminate|].
  intros H [|m] Hm; [lia|]. simpl.
  destruct (swap_if_greater A B) as [a b].
  destruct (b =? 0); [exact H|].
  destruct (extendedEuclid_fuel n b (a mod b)) as [res'|] eqn:E; [|discriminate].
  rewrite (IH _ _ _ E m) by lia. exact H.
Qed.

(** Two nested calls at least halve the second argument, so [2k+1]
    levels are enough when it is below [2^k]. *)
Lemma extendedEuclid_fuel_terminates (k : nat) :
  forall A B, 0 <= B <= A -> B < 2 ^ Z.of_nat k ->
  exists res, extendedEuclid_fuel (2 * k + 1) A B = Some res.
Proof.
  induction k as [|k IH]; intros A B Hord Hlt.
  - simpl in *. rewrite swap_if_greater_ordered by lia.
    assert (B = 0) as -> by lia. simpl. eauto.
  - replace (2 * S k + 1)%nat with (S (S (2 * k + 1))) by lia.
    cbn [extendedEuclid_fuel].
    rewrite swap_if_greater_ordered by lia.
    destruct (Z.eqb_spec B 0) as [|HB]; [eauto|].
    assert (HBpos : 0 < B) by lia.
    pose proof (Z.mod_pos_bound A B HBpos) as Hc.
    rewrite swap_if_greater_ordered by lia.
    destruct (Z.eqb_spec (A mod B) 0) as [|Hc0]; [eauto|].
    assert (Hcpos : 0 < A mod B) by lia.
    pose proof (Z.mod_pos_bound B (A mod B) Hcpos) as Hd.
    destruct (IH (A mod B) (B mod (A mod B))) as [[[g x] y] E].
    + lia.
    + rewrite Nat2Z.inj_succ, Z.pow_succ_r in Hlt by lia.
      pose proof (Z.div_mod B (A mod B)) as Hdm.
      assert (1 <= B / (A mod B)) by (apply Z.div_le_lower_bound; lia).
      nia.
    + rewrite E. eauto.
Qed.

Lemma depth_bound_enough (A B : Z) :
  Z.min A B < 2 ^ Z.of_nat (Z.to_nat (Z.log2 (Z.min A B)) + 1).
Proof.
  rewrite Nat2Z.inj_add, Z2Nat.id by apply Z.log2_nonneg.
  change (Z.of_nat 1) with 1.
  destruct (Z.le_gt_cases (Z.min A B) 0) as [Hle|Hgt].
  - rewrite Z.log2_nonpos by exact Hle. simpl. lia.
  - pose proof (Z.log2_spec _ Hgt). rewrite Z.add_1_r. lia.
Qed.

Lemma depth_bound_eq (A B : Z) :
  depth_bound A B = (2 * (Z.to_nat (Z.log2 (Z.min A B)) + 1) + 1)%nat.
Proof. unfold depth_bound. lia. Qed.

Lemma depth_bound_comm (A B : Z) : depth_bound A B = depth_bound B A.
Proof. unfold depth_bound. now rewrite Z.min_comm. Qed.

(** No pair of 64-bit operands needs more than 129 levels. *)
Lemma depth_bound_u64 (A B : Z) :
  in_u64 A -> in_u64 B -> (depth_bound A B <= 129)%nat.
Proof.
  unfold in_u64, two64, depth_bound. intros HA HB.
  assert (Z.log2 (Z.min A B) < 64).
  { destruct (Z.le_gt_cases (Z.min A B) 0) as [Hle|Hgt].
    - rewrite Z.log2_nonpos by exact Hle. lia.
    - apply Z.log2_lt_pow2; lia. }
  pose proof (Z.log2_nonneg (Z.min A B)). lia.
Qed.

Lemma extendedEuclid_total (A B : Z) :
  in_u64 A -> in_u64 B -> exists res, extendedEuclid A B = Some res.
Proof.
  unfold in_u64. intros HA HB. unfold extendedEuclid.
  rewrite extendedEuclid_fuel_normal, depth_bound_eq.
  apply extendedEuclid_fuel_terminates; [lia | apply depth_bound_enough].
Qed.

End Recursive.

(** ** The iterative variant *)

Section Iterative.

(** On the remainder registers the wrapped update is the exact
    remainder of the division. *)
Lemma update_step_rem (r r0 : Z) :
  in_u64 r0 -> 0 < r ->
  update_step r r0 (r0 / r) = (r0 mod r, r).
Proof.
  unfold in_u64, update_step, u64_sub, u64_mul. intros H0 Hr.
  pose proof (Z.mod_pos_bound r0 r Hr) as Hm.
  pose proof (Z.mod_eq r0 r ltac:(lia)) as He.
  assert (Hd : 0 <= r0 / r) by (apply Z.div_pos; lia).
  assert (Hq : 0 <= r0 / r * r <= r0) by nia.
  f_equal.
  rewrite (u64_small (r0 / r * r)) by (unfold in_u64; lia).
  rewrite (Z.mul_comm _ r), <- He.
  apply u64_small. unfold in_u64. lia.
Qed.

Lemma loop_body_r (st : regs) :
  in_u64 (r0 st) -> 0 < r st ->
  r (loop_body st) = r0 st mod r st /\ r0 (loop_body st) = r st.
Proof.
  intros H0 Hr. unfold loop_body.
  rewrite (update_step_rem _ _ H0 Hr). split; reflexivity.
Qed.

Lemma loop_body_s (st : regs) :
  s (loop_body st) = u64_sub (s0 st) (u64_mul (r0 st / r st) (s st)) /\
  s0 (loop_body st) = s st.
Proof. split; reflexivity. Qed.

Lemma loop_body_t (st : regs) :
  t (loop_body st) = u64_sub (t0 st) (u64_mul (r0 st / r st) (t st)) /\
  t0 (loop_body st) = t st.
Proof. split; reflexivity. Qed.

(** The wrapped back-substitution of the recursive variant, as a
    congruence. *)
Lemma back_substitution (c c0 q x y : Z) :
  c * x + u64_sub c0 (u64_mul q c) * y ==
  c0 * y + c * i64 (u64_sub (u64 x) (u64_mul q (u64 y))).
Proof.
  rewrite i64_eqm, !u64_sub_eqm, !u64_mul_eqm, !u64_eqm.
  match goal with |- ?l == ?r => replace l with r by ring end.
  reflexivity.
Qed.

(** The loop started in any register state computes the linear
    combination, by the coefficient registers, of what the recursion
    returns on the remainder registers; and it runs out of fuel exactly
    when the recursion does. *)
Lemma while_loop_extendedEuclid (n : nat) :
  forall st, in_u64 (r0 st) -> 0 <= r st <= r0 st ->
  match extendedEuclid_fuel n (r0 st) (r st) with
  | None => while_loop n st = None
  | Some (g, x, y) =>
      exists st', while_loop n st = Some st' /\ r0 st' = g /\
                  s0 st' == s0 st * x + s st * y /\
                  t0 st' == t0 st * x + t st * y
  end.
Proof.
  induction n as [|n IH]; intros st H0 Hord; simpl; [reflexivity|].
  rewrite swap_if_greater_ordered by lia.
  destruct (Z.eqb_spec (r st) 0) as [Hz|Hnz].
  - exists st. repeat split;
      match goal with |- ?l == ?r => replace r with l by ring end;
      reflexivity.
  - assert (Hr : 0 < r st) by lia.
    destruct (loop_body_r st H0 Hr) as [Er Er0].
    destruct (loop_body_s st) as [Es Es0].
    destruct (loop_body_t st) as [Et Et0].
    pose proof (Z.mod_pos_bound (r0 st) (r st) Hr) as Hm.
    specialize (IH (loop_body st)).
    rewrite Er, Er0 in IH.
    specialize (IH ltac:(unfold in_u64 in *; lia) ltac:(lia)).
    destruct (extendedEuclid_fuel n (r st) (r0 st mod r st))
      as [[[g x] y]|]; [|exact IH].
    destruct IH as (st' & Hrun & Hg & Hs & Ht).
    exists st'. split; [exact Hrun|]. split; [exact Hg|].
    rewrite Es, Es0 in Hs. rewrite Et, Et0 in Ht.
    split.
    + rewrite Hs. apply back_substitution.
    + rewrite Ht. apply back_substitution.
Qed.

(** The two variants agree for every amount of fuel. *)
Lemma extendedEuclid_1_fuel_eq (n : nat) (A B : Z) :
  in_u64 A -> in_u64 B ->
  extendedEuclid_1_fuel n A B = extendedEuclid_fuel n A B.
Proof.
  intros HA HB. unfold extendedEuclid_1_fuel.
  rewrite (extendedEuclid_fuel_normal n A B), swap_if_greater_spec.
  assert (Ha : in_u64 (Z.max A B)) by (unfold in_u64 in *; lia).
  assert (Hb : in_u64 (Z.min A B)) by (unfold in_u64 in *; lia).
  assert (Hba : Z.min A B <= Z.max A B) by lia.
  generalize dependent (Z.max A B). generalize dependent (Z.min A B).
  intros b Hb a Ha Hba.
  pose proof (while_loop_extendedEuclid n (mkRegs 0 1 1 0 b a)) as H.
  cbn [r r0 s s0 t t0] in H.
  specialize (H Ha ltac:(unfold in_u64 in Hb; lia)).
  destruct (extendedEuclid_fuel n a b) as [[[g x] y]|] eqn:E.
  - destruct H as (st' & -> & Hg & Hs & Ht).
    apply extendedEuclid_fuel_spec in E; [| exact Ha | exact Hb].
    destruct E as (_ & Hx & Hy & _).
    assert (Ex : i64 (s0 st') = x).
    { rewrite <- (i64_small x Hx). apply i64_congr.
      rewrite Hs. now rewrite Z.mul_1_l, Z.mul_0_l, Z.add_0_r. }
    assert (Ey : i64 (t0 st') = y).
    { rewrite <- (i64_small y Hy). apply i64_congr.
      rewrite Ht. now rewrite Z.mul_1_l, Z.mul_0_l. }
    now rewrite Hg, Ex, Ey.
  - now rewrite H.
Qed.

Lemma extendedEuclid_1_eq (A B : Z) :
  in_u64 A -> in_u64 B -> extendedEuclid_1 A B = extendedEuclid A B.
Proof. apply extendedEuclid_1_fuel_eq. Qed.

End Iterative.

(** ** Properties of the two entry points *)

Section Contract.

Lemma gcd_in_u64 (A B : Z) : in_u64 A -> in_u64 B -> in_u64 (Z.gcd A B).
Proof.
  unfold in_u64. intros HA HB.
  pose proof (Z.gcd_nonneg A B) as Hn.
  split; [exact Hn|].
  destruct (Z.eq_dec A 0) as [->|HA0].
  - rewrite Z.gcd_0_l, Z.abs_eq; lia.
  - assert (HApos : 0 < A) by lia.
    pose proof (Z.divide_pos_le _ _ HApos (Z.gcd_divide_l A B)). lia.
Qed.

Lemma extendedEuclid_1_fuel_comm (n : nat) (A B : Z) :
  extendedEuclid_1_fuel n A B = extendedEuclid_1_fuel n B A.
Proof. unfold extendedEuclid_1_fuel. now rewrite swap_if_greater_comm. Qed.

Lemma extendedEuclid_comm (A B : Z) : extendedEuclid A B = extendedEuclid B A.
Proof.
  unfold extendedEuclid.
  now rewrite depth_bound_comm, extendedEuclid_fuel_comm.
Qed.

Lemma extendedEuclid_1_comm (A B : Z) :
  extendedEuclid_1 A B = extendedEuclid_1 B A.
Proof.
  unfold extendedEuclid_1.
  now rewrite depth_bound_comm, extendedEuclid_1_fuel_comm.
Qed.

(** Everything the recursive entry point guarantees, in one place. *)
Lemma extendedEuclid_spec (A B : Z) :
  in_u64 A -> in_u64 B ->
  exists x y,
    extendedEuclid A B = Some (Z.gcd A B, x, y) /\
    in_i64 x /\ in_i64 y /\
    u64 (Z.max A B * x + Z.min A B * y) = Z.gcd A B.
Proof.
  intros HA HB.
  destruct (extendedEuclid_total A B HA HB) as [[[g x] y] E].
  pose proof (extendedEuclid_fuel_spec _ _ _ _ _ _ HA HB E)
    as (-> & Hx & Hy & Hbez).
  exists x, y. split; [exact E|]. split; [exact Hx|]. split; [exact Hy|].
  rewrite <- (u64_small (Z.gcd A B)) by now apply gcd_in_u64.
  exact Hbez.
Qed.

(** When no swap takes place the identity is the documented one. *)
Lemma bezout_when_ordered (A B : Z) :
  in_u64 A -> in_u64 B -> B <= A ->
  exists x y,
    extendedEuclid A B = Some (Z.gcd A B, x, y) /\
    extendedEuclid_1 A B = Some (Z.gcd A B, x, y) /\
    u64 (A * x + B * y) = Z.gcd A B.
Proof.
  intros HA HB Hord.
  destruct (extendedEuclid_spec A B HA HB) as (x & y & E & _ & _ & Hbez).
  exists x, y. rewrite extendedEuclid_1_eq by assumption.
  rewrite Z.max_l, Z.min_r in Hbez by lia. auto.
Qed.

(** With a zero first argument the swap makes the call the one on
    [(B, 0)], whatever [B] is. *)
Lemma zero_first_argument_returns (B : Z) :
  in_u64 B ->
  extendedEuclid 0 B = Some (B, 1, 0) /\
  extendedEuclid_1 0 B = Some (B, 1, 0).
Proof.
  intros HB.
  assert (H0 : in_u64 0) by u64_lit.
  assert (E : extendedEuclid 0 B = Some (B, 1, 0)).
  { rewrite extendedEuclid_comm. unfold extendedEuclid, depth_bound.
    unfold in_u64 in HB.
    rewrite Z.min_r by lia. cbn [Z.log2 Z.to_nat Nat.mul Nat.add].
    cbn [extendedEuclid_fuel].
    rewrite swap_if_greater_ordered by lia. reflexivity. }
  split; [exact E|]. now rewrite extendedEuclid_1_eq.
Qed.

End Contract.

(** ** The specification, claim by claim *)

(** C1 (Bezout identity against the caller's operand order).  The file
    header documents [gcd(a, b) = a * x + b * y] for the arguments as
    passed.  Both variants swap their working copies when [B > A] and
    never swap the coefficients back: on [(15, 35)] each returns
    [(5, 1, -2)], and [15 * 1 + 35 * (-2)] is [-55], which is not [5]
    modulo [2^64]. *)
Theorem C1_bezout_original_order_violated :
  in_u64 15 /\ in_u64 35 /\
  extendedEuclid 15 35 = Some (5, 1, -2) /\
  extendedEuclid_1 15 35 = Some (5, 1, -2) /\
  u64 (15 * 1 + 35 * -2) <> 5.
Proof.
  split; [u64_lit|]. split; [u64_lit|].
  split; [reflexivity|]. split; [reflexivity|].
  vm_compute. discriminate.
Qed.

(** C2 (equivalence of the strategies).  For every pair of 64-bit
    operands the iterative and the recursive variant return the same
    triple [(GCD, x, y)]. *)
Theorem C2_iterative_equals_recursive (A B : Z) :
  in_u64 A -> in_u64 B ->
  exists g x y,
    extendedEuclid_1 A B = Some (g, x, y) /\
    extendedEuclid A B = Some (g, x, y).
Proof.
  intros HA HB.
  destruct (extendedEuclid_total A B HA HB) as [[[g x] y] E].
  exists g, x, y. split; [|exact E].
  now rewrite extendedEuclid_1_eq.
Qed.

Lemma C2_witness :
  in_u64 240 /\ in_u64 46 /\
  exists g x y,
    extendedEuclid_1 240 46 = Some (g, x, y) /\
    extendedEuclid 240 46 = Some (g, x, y).
Proof.
  split; [u64_lit|]. split; [u64_lit|].
  apply (C2_iterative_equals_recursive 240 46); u64_lit.
Defined.

(** C3 (zero first argument).  The documented identity
    [gcd(a, b) = a * x + b * y] forces [y = 1] on [(0, B)] with
    [B > 0], as the triple [(B, 0, 1)] has it.  Both variants swap to
    [(B, 0)] and return the coefficients of the swapped pair: on
    [(0, 7)] each returns [(7, 1, 0)], and [0 * 1 + 7 * 0] is [0], not
    [7]. *)
Theorem C3_zero_first_argument_violated :
  in_u64 0 /\ in_u64 7 /\
  extendedEuclid 0 7 = Some (7, 1, 0) /\
  extendedEuclid_1 0 7 = Some (7, 1, 0) /\
  extendedEuclid 0 7 <> Some (7, 0, 1) /\
  extendedEuclid_1 0 7 <> Some (7, 0, 1) /\
  u64 (0 * 1 + 7 * 0) <> 7.
Proof.
  split; [u64_lit|]. split; [u64_lit|].
  split; [reflexivity|]. split; [reflexivity|].
  repeat split; vm_compute; discriminate.
Qed.

(** C4 (GCD correctness).  For every pair of 64-bit operands each
    variant returns as [GCD] the mathematical greatest common divisor:
    [Z.gcd A B], which is non-negative, fits in 64 bits, divides both
    operands, is divisible by every common divisor, and is [0] on
    [(0, 0)]. *)
Theorem C4_gcd_is_mathematical_gcd (A B : Z) :
  in_u64 A -> in_u64 B ->
  (exists x y, extendedEuclid A B = Some (Z.gcd A B, x, y)) /\
  (exists x y, extendedEuclid_1 A B = Some (Z.gcd A B, x, y)) /\
  in_u64 (Z.gcd A B) /\
  (Z.gcd A B | A) /\ (Z.gcd A B | B) /\
  (forall d, (d | A) -> (d | B) -> (d | Z.gcd A B)) /\
  (A = 0 -> B = 0 -> Z.gcd A B = 0).
Proof.
  intros HA HB.
  destruct (extendedEuclid_spec A B HA HB) as (x & y & E & _).
  split; [eauto|]. split.
  { exists x, y. now rewrite extendedEuclid_1_eq. }
  split; [now apply gcd_in_u64|].
  split; [apply Z.gcd_divide_l|]. split; [apply Z.gcd_divide_r|].
  split; [intros d; apply Z.gcd_greatest|].
  intros -> ->. reflexivity.
Qed.

Lemma C4_witness :
  in_u64 240 /\ in_u64 46 /\
  (exists x y, extendedEuclid 240 46 = Some (Z.gcd 240 46, x, y)) /\
  (exists x y, extendedEuclid_1 240 46 = Some (Z.gcd 240 46, x, y)) /\
  in_u64 (Z.gcd 240 46) /\
  (Z.gcd 240 46 | 240) /\ (Z.gcd 240 46 | 46) /\
  (forall d, (d | 240) -> (d | 46) -> (d | Z.gcd 240 46)) /\
  (240 = 0 -> 46 = 0 -> Z.gcd 240 46 = 0).
Proof.
  split; [u64_lit|]. split; [u64_lit|].
  apply (C4_gcd_is_mathematical_gcd 240 46); u64_lit.
Defined.

(** C5 (zero second argument).  For every 64-bit [A], [A = 0] included,
    each variant called with second argument [0] returns the triple
    [(A, 1, 0)]; on [(0, 0)] the [GCD] is therefore [0]. *)
Theorem C5_zero_second_argument (A : Z) :
  in_u64 A ->
  extendedEuclid A 0 = Some (A, 1, 0) /\
  extendedEuclid_1 A 0 = Some (A, 1, 0) /\
  option_map GCD_of (extendedEuclid 0 0) = Some 0 /\
  option_map GCD_of (extendedEuclid_1 0 0) = Some 0.
Proof.
  unfold in_u64. intros HA.
  assert (E : extendedEuclid A 0 = Some (A, 1, 0)).
  { unfold extendedEuclid, depth_bound.
    rewrite Z.min_r by lia. cbn [Z.log2 Z.to_nat Nat.mul Nat.add].
    cbn [extendedEuclid_fuel].
    rewrite swap_if_greater_ordered by lia. reflexivity. }
  assert (E1 : extendedEuclid_1 A 0 = Some (A, 1, 0)).
  { unfold extendedEuclid_1, depth_bound, extendedEuclid_1_fuel.
    rewrite Z.min_r by lia. cbn [Z.log2 Z.to_nat Nat.mul Nat.add].
    rewrite swap_if_greater_ordered by lia. reflexivity. }
  split; [exact E|]. split; [exact E1|].
  split; reflexivity.
Qed.

Lemma C5_witness :
  in_u64 17 /\
  extendedEuclid 17 0 = Some (17, 1, 0) /\
  extendedEuclid_1 17 0 = Some (17, 1, 0) /\
  option_map GCD_of (extendedEuclid 0 0) = Some 0 /\
  option_map GCD_of (extendedEuclid_1 0 0) = Some 0.
Proof.
  split; [u64_lit|].
  apply (C5_zero_second_argument 17); u64_lit.
Defined.

(** C6 (symmetry of the GCD).  For every pair of 64-bit operands and
    for each variant, the call on [(A, B)] and the call on [(B, A)]
    return the same [GCD]. *)
Theorem C6_gcd_symmetric (A B : Z) :
  in_u64 A -> in_u64 B ->
  (exists t1 t2,
     extendedEuclid A B = Some t1 /\ extendedEuclid B A = Some t2 /\
     GCD_of t1 = GCD_of t2) /\
  (exists t1 t2,
     extendedEuclid_1 A B = Some t1 /\ extendedEuclid_1 B A = Some t2 /\
     GCD_of t1 = GCD_of t2).
Proof.
  intros HA HB.
  destruct (extendedEuclid_spec A B HA HB) as (x & y & E & _).
  destruct (extendedEuclid_spec B A HB HA) as (x' & y' & E' & _).
  split.
  - eexists _, _. split; [exact E|]. split; [exact E'|].
    apply Z.gcd_comm.
  - eexists _, _. rewrite !extendedEuclid_1_eq by assumption.
    split; [exact E|]. split; [exact E'|]. apply Z.gcd_comm.
Qed.

Lemma C6_witness :
  in_u64 15 /\ in_u64 35 /\
  (exists t1 t2,
     extendedEuclid 15 35 = Some t1 /\ extendedEuclid 35 15 = Some t2 /\
     GCD_of t1 = GCD_of t2) /\
  (exists t1 t2,
     extendedEuclid_1 15 35 = Some t1 /\ extendedEuclid_1 35 15 = Some t2 /\
     GCD_of t1 = GCD_of t2).
Proof.
  split; [u64_lit|]. split; [u64_lit|].
  apply (C6_gcd_symmetric 15 35); u64_lit.
Defined.

(** C7 (concrete examples).  On [(35, 15)] each variant returns
    [GCD = 5] with coefficients such that [35 * x + 15 * y = 5]; on
    [(240, 46)] each returns [GCD = 2] with coefficients such that
    [240 * x + 46 * y = 2]. *)
Theorem C7_concrete_examples :
  (exists x y, extendedEuclid 35 15 = Some (5, x, y) /\
               35 * x + 15 * y = 5) /\
  (exists x y, extendedEuclid_1 35 15 = Some (5, x, y) /\
               35 * x + 15 * y = 5) /\
  (exists x y, extendedEuclid 240 46 = Some (2, x, y) /\
               240 * x + 46 * y = 2) /\
  (exists x y, extendedEuclid_1 240 46 = Some (2, x, y) /\
               240 * x + 46 * y = 2).
Proof.
  split; [exists 1, (-2); split; reflexivity|].
  split; [exists 1, (-2); split; reflexivity|].
  split; exists (-9), 47; split; reflexivity.
Qed.

(** C8 (totality).  For every pair of 64-bit operands, [(0, 0)]
    included, the recursion and the loop both terminate and return a
    complete triple: a depth logarithmic in the smaller operand, never
    above 129, is enough, and any larger fuel gives the same result. *)
Theorem C8_both_variants_total (A B : Z) :
  in_u64 A -> in_u64 B ->
  (exists res, extendedEuclid A B = Some res) /\
  (exists res, extendedEuclid_1 A B = Some res) /\
  (depth_bound A B <= 129)%nat /\
  (forall n, (depth_bound A B <= n)%nat ->
     extendedEuclid_fuel n A B = extendedEuclid A B /\
     extendedEuclid_1_fuel n A B = extendedEuclid_1 A B).
Proof.
  intros HA HB.
  destruct (extendedEuclid_total A B HA HB) as [res E].
  split; [eauto|]. split.
  { exists res. now rewrite extendedEuclid_1_eq. }
  split; [now apply depth_bound_u64|].
  intros n Hn.
  assert (En : extendedEuclid_fuel n A B = extendedEuclid A B).
  { rewrite E. exact (extendedEuclid_fuel_mono _ _ _ _ E n Hn). }
  split; [exact En|].
  now rewrite extendedEuclid_1_fuel_eq, extendedEuclid_1_eq.
Qed.

Lemma C8_witness :
  in_u64 0 /\ in_u64 0 /\
  (exists res, extendedEuclid 0 0 = Some res) /\
  (exists res, extendedEuclid_1 0 0 = Some res) /\
  (depth_bound 0 0 <= 129)%nat /\
  (forall n, (depth_bound 0 0 <= n)%nat ->
     extendedEuclid_fuel n 0 0 = extendedEuclid 0 0 /\
     extendedEuclid_1_fuel n 0 0 = extendedEuclid_1 0 0).
Proof.
  split; [u64_lit|]. split; [u64_lit|].
  apply (C8_both_variants_total 0 0); u64_lit.
Defined.

(** C9 (identity against the swapped operands).  For every pair of
    64-bit operands the triple returned by each variant satisfies
    [max(A,B) * x + min(A,B) * y = GCD] modulo [2^64]. *)
Theorem C9_bezout_larger_first (A B : Z) :
  in_u64 A -> in_u64 B ->
  (exists g x y, extendedEuclid A B = Some (g, x, y) /\
                 u64 (Z.max A B * x + Z.min A B * y) = g) /\
  (exists g x y, extendedEuclid_1 A B = Some (g, x, y) /\
                 u64 (Z.max A B * x + Z.min A B * y) = g).
Proof.
  intros HA HB.
  destruct (extendedEuclid_spec A B HA HB) as (x & y & E & _ & _ & Hbez).
  split; exists (Z.gcd A B), x, y; (split; [|exact Hbez]).
  - exact E.
  - now rewrite extendedEuclid_1_eq.
Qed.

Lemma C9_witness :
  in_u64 15 /\ in_u64 35 /\
  (exists g x y, extendedEuclid 15 35 = Some (g, x, y) /\
                 u64 (Z.max 15 35 * x + Z.min 15 35 * y) = g) /\
  (exists g x y, extendedEuclid_1 15 35 = Some (g, x, y) /\
                 u64 (Z.max 15 35 * x + Z.min 15 35 * y) = g).
Proof.
  split; [u64_lit|]. split; [u64_lit|].
  apply (C9_bezout_larger_first 15 35); u64_lit.
Defined.

(** C10 (commutativity on the whole triple).  For every pair of 64-bit
    operands and for each variant, the call on [(A, B)] and the call on
    [(B, A)] return the same triple [(GCD, x, y)]. *)
Theorem C10_triple_commutative (A B : Z) :
  in_u64 A -> in_u64 B ->
  (exists res, extendedEuclid A B = Some res /\
               extendedEuclid B A = Some res) /\
  (exists res, extendedEuclid_1 A B = Some res /\
               extendedEuclid_1 B A = Some res).
Proof.
  intros HA HB.
  destruct (extendedEuclid_total A B HA HB) as [res E].
  split; exists res.
  - split; [exact E|]. now rewrite extendedEuclid_comm.
  - assert (E1 : extendedEuclid_1 A B = Some res)
      by now rewrite extendedEuclid_1_eq.
    split; [exact E1|]. now rewrite extendedEuclid_1_comm.
Qed.

Lemma C10_witness :
  in_u64 15 /\ in_u64 35 /\
  (exists res, extendedEuclid 15 35 = Some res /\
               extendedEuclid 35 15 = Some res) /\
  (exists res, extendedEuclid_1 15 35 = Some res /\
               extendedEuclid_1 35 15 = Some res).
Proof.
  split; [u64_lit|]. split; [u64_lit|].
  apply (C10_triple_commutative 15 35); u64_lit.
Defined.

(** ** Coefficients without wrap-around *)

Section Exact.

(** When the exact value fits in [int64_t], the wrapped
    back-substitution returns it. *)
Lemma back_substitution_exact (q x y : Z) :
  in_i64 (x - q * y) ->
  i64 (u64_sub (u64 x) (u64_mul q (u64 y))) = x - q * y.
Proof.
  intros H. rewrite <- (i64_small _ H). apply i64_congr.
  now rewrite u64_sub_eqm, u64_mul_eqm, !u64_eqm.
Qed.

Lemma extendedEuclid_fuel_exact (n : nat) :
  forall a b g x y,
    in_u64 a -> 0 <= b <= a ->
    extendedEuclid_fuel n a b = Some (g, x, y) ->
    a * x + b * y = g /\ exact_shape a b g x y.
Proof.
  induction n as [|n IH]; intros a b g x y Ha Hord; simpl; [discriminate|].
  rewrite swap_if_greater_ordered by lia.
  destruct (Z.eqb_spec b 0) as [->|Hnz].
  - intros [= <- <- <-]. split; [ring|]. left. auto.
  - assert (Hpos : 0 < b) by lia.
    pose proof (Z.mod_pos_bound a b Hpos) as Hc.
    pose proof (Z.div_mod a b Hnz) as Hdm.
    assert (Hq : 0 <= a / b) by (apply Z.div_pos; lia).
    destruct (extendedEuclid_fuel n b (a mod b)) as [[[g' x'] y']|] eqn:E;
      [|discriminate].
    apply IH in E; [| unfold in_u64 in *; lia | lia].
    destruct E as [Hbez Hshape].
    unfold in_u64 in Ha. rewrite two64_two63 in Ha.
    set (q := a / b) in *. set (c := a mod b) in *.
    assert (Hy : in_i64 (x' - q * y')).
    { unfold in_i64.
      destruct Hshape as [(Hc0 & -> & ->)|[(Hcp & Hm & -> & ->)|
                          (Hcp & Hm & Hg & Hx' & Hy')]].
      - unfold two63. lia.
      - nia.
      - nia. }
    rewrite (back_substitution_exact _ _ _ Hy).
    intros [= <- <- <-]. split; [rewrite <- Hbez; nia|].
    right.
    destruct Hshape as [(Hc0 & -> & ->)|[(Hcp & Hm & -> & ->)|
                        (Hcp & Hm & Hg & Hx' & Hy')]].
    + left. repeat split; [lia | exact Hc0 | ring].
    + right. assert (g' = c) as -> by lia.
      apply Z.mod_divide in Hm; [|lia]. destruct Hm as [k Hk].
      assert (2 <= k) by nia.
      repeat split; try lia; try nia.
    + right. repeat split; try lia; try nia.
Qed.

(** The same on arbitrary operands, for both entry points. *)
Lemma extendedEuclid_exact (A B : Z) :
  in_u64 A -> in_u64 B ->
  exists g x y,
    extendedEuclid A B = Some (g, x, y) /\
    extendedEuclid_1 A B = Some (g, x, y) /\
    g = Z.gcd A B /\
    Z.max A B * x + Z.min A B * y = g /\
    exact_shape (Z.max A B) (Z.min A B) g x y.
Proof.
  intros HA HB.
  destruct (extendedEuclid_spec A B HA HB) as (x & y & E & _).
  exists (Z.gcd A B), x, y.
  split; [exact E|]. split; [now rewrite extendedEuclid_1_eq|].
  split; [reflexivity|].
  unfold extendedEuclid in E. rewrite extendedEuclid_fuel_normal in E.
  apply extendedEuclid_fuel_exact in E; [exact E | |]; unfold in_u64 in *; lia.
Qed.

End Exact.

(** ** Scaling of the operands *)

Section Scaling.

Lemma swap_if_greater_scale (k A B : Z) :
  0 < k ->
  swap_if_greater (k * A) (k * B) =
  (k * fst (swap_if_greater A B), k * snd (swap_if_greater A B)).
Proof.
  intros Hk. unfold swap_if_greater.
  destruct (Z.gtb_spec B A); destruct (Z.gtb_spec (k * B) (k * A));
    try reflexivity; nia.
Qed.

(** A common factor of the operands goes to the gcd and leaves the
    quotients, hence the coefficients, untouched. *)
Lemma extendedEuclid_fuel_scale (n : nat) :
  forall k A B, 0 < k ->
  extendedEuclid_fuel n (k * A) (k * B) =
  match extendedEuclid_fuel n A B with
  | Some (g, x, y) => Some (k * g, x, y)
  | None => None
  end.
Proof.
  induction n as [|n IH]; intros k A B Hk; simpl; [reflexivity|].
  rewrite swap_if_greater_scale by exact Hk.
  destruct (swap_if_greater A B) as [a b]. cbn [fst snd].
  destruct (Z.eqb_spec b 0) as [->|Hnz].
  - rewrite Z.mul_0_r. reflexivity.
  - destruct (Z.eqb_spec (k * b) 0) as [H0|_]; [nia|].
    rewrite Z.mul_mod_distr_l, Z.div_mul_cancel_l by lia.
    rewrite IH by exact Hk.
    destruct (extendedEuclid_fuel n b (a mod b)) as [[[g x] y]|]; reflexivity.
Qed.

End Scaling.

(** ** The invariant of the loop *)

Section LoopInvariant.

Lemma loop_body_inv (A B : Z) (st : regs) :
  bezout_inv A B st -> bezout_inv A B (loop_body st).
Proof.
  unfold bezout_inv. intros [H0 H].
  assert (Er : r (loop_body st) =
               u64_sub (r0 st) (u64_mul (r0 st / r st) (r st)))
    by reflexivity.
  assert (Er0 : r0 (loop_body st) = r st) by reflexivity.
  destruct (loop_body_s st) as [Es Es0].
  destruct (loop_body_t st) as [Et Et0].
  rewrite Er, Er0, Es, Es0, Et, Et0. split; [exact H|].
  generalize (r0 st / r st). intros q.
  rewrite !u64_sub_eqm, !u64_mul_eqm, H0, H.
  match goal with |- ?l == ?r => replace l with r by ring end.
  reflexivity.
Qed.

Lemma while_loop_inv (n : nat) (A B : Z) :
  forall st st',
    bezout_inv A B st -> while_loop n st = Some st' ->
    bezout_inv A B st' /\ r st' = 0.
Proof.
  induction n as [|n IH]; intros st st' Hinv; simpl; [discriminate|].
  destruct (Z.eqb_spec (r st) 0) as [Hz|Hnz].
  - intros [= <-]. auto.
  - apply IH, loop_body_inv, Hinv.
Qed.

Lemma init_inv (A B : Z) : bezout_inv A B (mkRegs 0 1 1 0 B A).
Proof.
  split; cbn [r r0 s s0 t t0];
    match goal with |- ?l == ?r => replace r with l by ring end;
    reflexivity.
Qed.

End LoopInvariant.

(** ** Further properties of the code *)

(** X1 ([update_step] on the remainder registers).  With the quotient
    [r0 / r] of a 64-bit [r0] by a positive [r], the wrapped update
    [r0 - quotient * r] is the exact remainder [r0 mod r], and the old
    [r] moves to [r0]: no wrap-around occurs on this pair. *)
Theorem X1_update_step_exact_remainder (r r0 : Z) :
  in_u64 r0 -> 0 < r ->
  update_step r r0 (r0 / r) = (r0 mod r, r).
Proof. apply update_step_rem. Qed.

Lemma X1_witness :
  in_u64 35 /\ 0 < 15 /\ update_step 15 35 (35 / 15) = (35 mod 15, 15).
Proof.
  split; [u64_lit|]. split; [lia|].
  apply (X1_update_step_exact_remainder 15 35); [u64_lit | lia].
Defined.

(** X2 (loop invariant).  One iteration of the loop body keeps the
    invariant [r0 = s0 * A + t0 * B] and [r = s * A + t * B] modulo
    [2^64], from any register state. *)
Theorem X2_loop_body_keeps_invariant (A B : Z) (st : regs) :
  bezout_inv A B st -> bezout_inv A B (loop_body st).
Proof. apply loop_body_inv. Qed.

Lemma X2_witness :
  bezout_inv 35 15 (mkRegs 0 1 1 0 15 35) /\
  bezout_inv 35 15 (loop_body (mkRegs 0 1 1 0 15 35)).
Proof.
  assert (H : bezout_inv 35 15 (mkRegs 0 1 1 0 15 35))
    by (split; reflexivity).
  split; [exact H|].
  apply (X2_loop_body_keeps_invariant 35 15 _ H).
Defined.

(** X3 (state at loop exit).  When the loop of [extendedEuclid_1],
    started from its initial registers on [(A, B)], exits in state
    [st'], then [r = 0], [r0 = s0 * A + t0 * B] and
    [s * A + t * B = 0] modulo [2^64]. *)
Theorem X3_loop_exit_state (n : nat) (A B : Z) (st' : regs) :
  while_loop n (mkRegs 0 1 1 0 B A) = Some st' ->
  r st' = 0 /\
  r0 st' == s0 st' * A + t0 st' * B /\
  s st' * A + t st' * B == 0.
Proof.
  intros Hrun.
  destruct (while_loop_inv n A B _ _ (init_inv A B) Hrun) as [[H0 H] Hz].
  split; [exact Hz|]. split; [exact H0|].
  rewrite <- H, Hz. reflexivity.
Qed.

Lemma X3_witness :
  while_loop 3 (mkRegs 0 1 1 0 15 35) =
    Some (mkRegs (u64 (-3)) 1 7 (u64 (-2)) 0 5) /\
  r (mkRegs (u64 (-3)) 1 7 (u64 (-2)) 0 5) = 0 /\
  r0 (mkRegs (u64 (-3)) 1 7 (u64 (-2)) 0 5) ==
    s0 (mkRegs (u64 (-3)) 1 7 (u64 (-2)) 0 5) * 35 +
    t0 (mkRegs (u64 (-3)) 1 7 (u64 (-2)) 0 5) * 15 /\
  s (mkRegs (u64 (-3)) 1 7 (u64 (-2)) 0 5) * 35 +
  t (mkRegs (u64 (-3)) 1 7 (u64 (-2)) 0 5) * 15 == 0.
Proof.
  assert (H : while_loop 3 (mkRegs 0 1 1 0 15 35) =
              Some (mkRegs (u64 (-3)) 1 7 (u64 (-2)) 0 5))
    by reflexivity.
  split; [exact H|].
  apply (X3_loop_exit_state 3 35 15 _ H).
Defined.

(** X4 (progress of the loop).  On a 64-bit [r0] and a positive [r],
    one iteration strictly decreases [r], keeps it non-negative, moves
    the old [r] to [r0] and preserves [gcd(r0, r)]. *)
Theorem X4_loop_body_progress (st : regs) :
  in_u64 (r0 st) -> 0 < r st ->
  0 <= r (loop_body st) < r st /\
  r0 (loop_body st) = r st /\
  Z.gcd (r0 (loop_body st)) (r (loop_body st)) = Z.gcd (r0 st) (r st).
Proof.
  intros H0 Hr.
  destruct (loop_body_r st H0 Hr) as [-> ->].
  split; [apply Z.mod_pos_bound, Hr|]. split; [reflexivity|].
  rewrite (Z.gcd_comm (r st)), Z.gcd_mod by lia.
  apply Z.gcd_comm.
Qed.

Lemma X4_witness :
  in_u64 (r0 (mkRegs 0 1 1 0 15 35)) /\ 0 < r (mkRegs 0 1 1 0 15 35) /\
  0 <= r (loop_body (mkRegs 0 1 1 0 15 35)) < r (mkRegs 0 1 1 0 15 35) /\
  r0 (loop_body (mkRegs 0 1 1 0 15 35)) = r (mkRegs 0 1 1 0 15 35) /\
  Z.gcd (r0 (loop_body (mkRegs 0 1 1 0 15 35)))
        (r (loop_body (mkRegs 0 1 1 0 15 35))) =
  Z.gcd (r0 (mkRegs 0 1 1 0 15 35)) (r (mkRegs 0 1 1 0 15 35)).
Proof.
  split; [cbn [r0]; u64_lit|]. split; [cbn [r]; lia|].
  apply (X4_loop_body_progress (mkRegs 0 1 1 0 15 35));
    [cbn [r0]; u64_lit | cbn [r]; lia].
Defined.

(** X5 (exact identity).  For every pair of 64-bit operands the triple
    returned by both variants satisfies
    [max(A,B) * x + min(A,B) * y = GCD] over the integers, with the
    signed values of [x] and [y]: nothing is lost to wrap-around. *)
Theorem X5_bezout_exact_over_Z (A B : Z) :
  in_u64 A -> in_u64 B ->
  exists g x y,
    extendedEuclid A B = Some (g, x, y) /\
    extendedEuclid_1 A B = Some (g, x, y) /\
    Z.max A B * x + Z.min A B * y = g.
Proof.
  intros HA HB.
  destruct (extendedEuclid_exact A B HA HB)
    as (g & x & y & E & E1 & _ & Hbez & _).
  exists g, x, y. auto.
Qed.

Lemma X5_witness :
  in_u64 18446744073709551615 /\ in_u64 11400714819323198485 /\
  exists g x y,
    extendedEuclid 18446744073709551615 11400714819323198485
      = Some (g, x, y) /\
    extendedEuclid_1 18446744073709551615 11400714819323198485
      = Some (g, x, y) /\
    Z.max 18446744073709551615 11400714819323198485 * x +
    Z.min 18446744073709551615 11400714819323198485 * y = g.
Proof.
  split; [u64_lit|]. split; [u64_lit|].
  apply (X5_bezout_exact_over_Z 18446744073709551615 11400714819323198485);
    u64_lit.
Defined.

(** X6 (size of the coefficients).  For every pair of 64-bit operands
    the returned coefficients satisfy [|x| <= max(1, min(A,B) / 2)] and
    [|y| <= max(1, max(A,B) / 2)]. *)
Theorem X6_coefficient_bounds (A B : Z) :
  in_u64 A -> in_u64 B ->
  exists g x y,
    extendedEuclid A B = Some (g, x, y) /\
    extendedEuclid_1 A B = Some (g, x, y) /\
    Z.abs x <= Z.max 1 (Z.min A B / 2) /\
    Z.abs y <= Z.max 1 (Z.max A B / 2).
Proof.
  intros HA HB.
  destruct (extendedEuclid_exact A B HA HB)
    as (g & x & y & E & E1 & _ & _ & Hshape).
  exists g, x, y. split; [exact E|]. split; [exact E1|].
  destruct Hshape as [(_ & -> & ->)|[(_ & _ & -> & ->)|
                      (Hb & _ & Hg & Hx & Hy)]]; [simpl; lia | simpl; lia |].
  split.
  - apply Z.le_trans with (Z.min A B / 2); [|lia].
    apply Z.div_le_lower_bound; [lia|]. nia.
  - apply Z.le_trans with (Z.max A B / 2); [|lia].
    apply Z.div_le_lower_bound; [lia|]. nia.
Qed.

Lemma X6_witness :
  in_u64 240 /\ in_u64 46 /\
  exists g x y,
    extendedEuclid 240 46 = Some (g, x, y) /\
    extendedEuclid_1 240 46 = Some (g, x, y) /\
    Z.abs x <= Z.max 1 (Z.min 240 46 / 2) /\
    Z.abs y <= Z.max 1 (Z.max 240 46 / 2).
Proof.
  split; [u64_lit|]. split; [u64_lit|].
  apply (X6_coefficient_bounds 240 46); u64_lit.
Defined.

(** X7 (sharp bound).  When the smaller operand is positive and does
    not divide the larger one, the returned coefficients satisfy
    [2 * GCD * |x| <= min(A,B)] and [2 * GCD * |y| <= max(A,B)]. *)
Theorem X7_coefficient_bounds_sharp (A B : Z) :
  in_u64 A -> in_u64 B ->
  0 < Z.min A B -> Z.max A B mod Z.min A B <> 0 ->
  exists g x y,
    extendedEuclid A B = Some (g, x, y) /\
    extendedEuclid_1 A B = Some (g, x, y) /\
    2 * g * Z.abs x <= Z.min A B /\
    2 * g * Z.abs y <= Z.max A B.
Proof.
  intros HA HB Hpos Hnd.
  destruct (extendedEuclid_exact A B HA HB)
    as (g & x & y & E & E1 & _ & _ & Hshape).
  exists g, x, y. split; [exact E|]. split; [exact E1|].
  destruct Hshape as [(Hz & _)|[(_ & Hd & _)|(_ & _ & Hg & Hx & Hy)]];
    [lia | contradiction |].
  split; nia.
Qed.

Lemma X7_witness :
  in_u64 46 /\ in_u64 240 /\
  0 < Z.min 46 240 /\ Z.max 46 240 mod Z.min 46 240 <> 0 /\
  exists g x y,
    extendedEuclid 46 240 = Some (g, x, y) /\
    extendedEuclid_1 46 240 = Some (g, x, y) /\
    2 * g * Z.abs x <= Z.min 46 240 /\
    2 * g * Z.abs y <= Z.max 46 240.
Proof.
  split; [u64_lit|]. split; [u64_lit|].
  split; [reflexivity|]. split; [vm_compute; discriminate|].
  apply (X7_coefficient_bounds_sharp 46 240);
    [u64_lit | u64_lit | reflexivity | vm_compute; discriminate].
Defined.

(** X8 (exact division).  When the smaller operand is positive and
    divides the larger one, equal operands included, both variants
    return [(min(A,B), 0, 1)]. *)
Theorem X8_divisible_operands (A B : Z) :
  in_u64 A -> in_u64 B ->
  0 < Z.min A B -> Z.max A B mod Z.min A B = 0 ->
  extendedEuclid A B = Some (Z.min A B, 0, 1) /\
  extendedEuclid_1 A B = Some (Z.min A B, 0, 1).
Proof.
  intros HA HB Hpos Hd.
  destruct (extendedEuclid_exact A B HA HB)
    as (g & x & y & E & E1 & _ & Hbez & Hshape).
  destruct Hshape as [(Hz & _)|[(_ & _ & -> & ->)|(_ & Hnd & _)]];
    [lia | | contradiction].
  assert (g = Z.min A B) as <- by lia. auto.
Qed.

Lemma X8_witness :
  in_u64 12 /\ in_u64 36 /\
  0 < Z.min 12 36 /\ Z.max 12 36 mod Z.min 12 36 = 0 /\
  extendedEuclid 12 36 = Some (Z.min 12 36, 0, 1) /\
  extendedEuclid_1 12 36 = Some (Z.min 12 36, 0, 1).
Proof.
  split; [u64_lit|]. split; [u64_lit|].
  split; [reflexivity|]. split; [reflexivity|].
  apply (X8_divisible_operands 12 36);
    [u64_lit | u64_lit | reflexivity | reflexivity].
Defined.

(** X9 (modular inverse).  For 64-bit [A] and a modulus [M > 1] coprime
    to [A], both variants called on [(A, M)] return [GCD = 1]; the
    inverse of [A] modulo [M] is the output [x] when [M <= A], and the
    output [y] when [A < M]. *)
Theorem X9_modular_inverse (A M : Z) :
  in_u64 A -> in_u64 M -> 1 < M -> Z.gcd A M = 1 ->
  exists x y,
    extendedEuclid A M = Some (1, x, y) /\
    extendedEuclid_1 A M = Some (1, x, y) /\
    (M <= A -> (A * x) mod M = 1) /\
    (A < M -> (A * y) mod M = 1).
Proof.
  intros HA HM H1 Hco.
  destruct (extendedEuclid_exact A M HA HM)
    as (g & x & y & E & E1 & Hg & Hbez & _).
  rewrite Hco in Hg. subst g.
  exists x, y. split; [exact E|]. split; [exact E1|]. split; intros Hord.
  - rewrite Z.max_l, Z.min_r in Hbez by lia.
    replace (A * x) with (1 + (- y) * M) by lia.
    rewrite Z.mod_add by lia. apply Z.mod_small. lia.
  - rewrite Z.max_r, Z.min_l in Hbez by lia.
    replace (A * y) with (1 + (- x) * M) by lia.
    rewrite Z.mod_add by lia. apply Z.mod_small. lia.
Qed.

Lemma X9_witness :
  in_u64 3 /\ in_u64 7 /\ 1 < 7 /\ Z.gcd 3 7 = 1 /\
  exists x y,
    extendedEuclid 3 7 = Some (1, x, y) /\
    extendedEuclid_1 3 7 = Some (1, x, y) /\
    (7 <= 3 -> (3 * x) mod 7 = 1) /\
    (3 < 7 -> (3 * y) mod 7 = 1).
Proof.
  split; [u64_lit|]. split; [u64_lit|].
  split; [lia|]. split; [reflexivity|].
  apply (X9_modular_inverse 3 7); [u64_lit | u64_lit | lia | reflexivity].
Defined.

(** X10 (zero GCD).  For every pair of 64-bit operands the [GCD]
    returned by both variants is [0] exactly when both operands are
    [0]; otherwise it is positive and at most the larger operand. *)
Theorem X10_gcd_zero_iff (A B : Z) :
  in_u64 A -> in_u64 B ->
  exists g x y,
    extendedEuclid A B = Some (g, x, y) /\
    extendedEuclid_1 A B = Some (g, x, y) /\
    (g = 0 <-> A = 0 /\ B = 0) /\
    0 <= g <= Z.max A B.
Proof.
  intros HA HB.
  destruct (extendedEuclid_exact A B HA HB)
    as (g & x & y & E & E1 & -> & _ & _).
  exists (Z.gcd A B), x, y. split; [exact E|]. split; [exact E1|].
  split; [apply Z.gcd_eq_0|].
  split; [apply Z.gcd_nonneg|].
  unfold in_u64 in *.
  destruct (Z.eq_dec A 0) as [->|HA0].
  - rewrite Z.gcd_0_l, Z.abs_eq; lia.
  - assert (HApos : 0 < A) by lia.
    pose proof (Z.divide_pos_le _ _ HApos (Z.gcd_divide_l A B)). lia.
Qed.

Lemma X10_witness :
  in_u64 0 /\ in_u64 0 /\
  exists g x y,
    extendedEuclid 0 0 = Some (g, x, y) /\
    extendedEuclid_1 0 0 = Some (g, x, y) /\
    (g = 0 <-> 0 = 0 /\ 0 = 0) /\
    0 <= g <= Z.max 0 0.
Proof.
  split; [u64_lit|]. split; [u64_lit|].
  apply (X10_gcd_zero_iff 0 0); u64_lit.
Defined.

(** X11 (signs).  For every pair of 64-bit operands the two returned
    coefficients are never both positive and never both negative. *)
Theorem X11_coefficients_opposite_signs (A B : Z) :
  in_u64 A -> in_u64 B ->
  exists g x y,
    extendedEuclid A B = Some (g, x, y) /\
    extendedEuclid_1 A B = Some (g, x, y) /\
    x * y <= 0.
Proof.
  intros HA HB.
  destruct (extendedEuclid_exact A B HA HB)
    as (g & x & y & E & E1 & _ & Hbez & Hshape).
  exists g, x, y. split; [exact E|]. split; [exact E1|].
  assert (Hord : 0 <= Z.min A B <= Z.max A B)
    by (unfold in_u64 in *; lia).
  revert Hbez Hshape Hord.
  generalize (Z.max A B) (Z.min A B). intros a b Hbez Hshape Hord.
  destruct Hshape as [(_ & -> & ->)|[(_ & _ & -> & ->)|
                      (Hb & _ & Hg & Hx & Hy)]]; [lia | lia |].
  destruct (Z.lt_trichotomy x 0) as [Hx0|[->|Hx0]];
    destruct (Z.lt_trichotomy y 0) as [Hy0|[->|Hy0]]; try nia.
Qed.

Lemma X11_witness :
  in_u64 240 /\ in_u64 46 /\
  exists g x y,
    extendedEuclid 240 46 = Some (g, x, y) /\
    extendedEuclid_1 240 46 = Some (g, x, y) /\
    x * y <= 0.
Proof.
  split; [u64_lit|]. split; [u64_lit|].
  apply (X11_coefficients_opposite_signs 240 46); u64_lit.
Defined.

(** X12 (common factor).  When the operands and their multiples by a
    positive [k] all fit in 64 bits, both variants return on
    [(k * A, k * B)] the coefficients they return on [(A, B)], and [k]
    times the [GCD]. *)
Theorem X12_common_factor (k A B : Z) :
  0 < k -> in_u64 A -> in_u64 B -> in_u64 (k * A) -> in_u64 (k * B) ->
  exists g x y,
    extendedEuclid A B = Some (g, x, y) /\
    extendedEuclid_1 A B = Some (g, x, y) /\
    extendedEuclid (k * A) (k * B) = Some (k * g, x, y) /\
    extendedEuclid_1 (k * A) (k * B) = Some (k * g, x, y).
Proof.
  intros Hk HA HB HkA HkB.
  destruct (extendedEuclid_total A B HA HB) as [[[g x] y] E].
  destruct (extendedEuclid_total (k * A) (k * B) HkA HkB) as [res Ek].
  exists g, x, y.
  assert (Es : extendedEuclid (k * A) (k * B) = Some (k * g, x, y)).
  { rewrite Ek.
    set (n := Nat.max (depth_bound A B) (depth_bound (k * A) (k * B))).
    pose proof (extendedEuclid_fuel_mono _ _ _ _ E n ltac:(lia)) as En.
    pose proof (extendedEuclid_fuel_mono _ _ _ _ Ek n ltac:(lia)) as Ekn.
    rewrite (extendedEuclid_fuel_scale n k A B Hk), En in Ekn.
    now rewrite Ekn. }
  split; [exact E|]. split; [now rewrite extendedEuclid_1_eq|].
  split; [exact Es|]. now rewrite extendedEuclid_1_eq.
Qed.

Lemma X12_witness :
  0 < 6 /\ in_u64 35 /\ in_u64 15 /\ in_u64 (6 * 35) /\ in_u64 (6 * 15) /\
  exists g x y,
    extendedEuclid 35 15 = Some (g, x, y) /\
    extendedEuclid_1 35 15 = Some (g, x, y) /\
    extendedEuclid (6 * 35) (6 * 15) = Some (6 * g, x, y) /\
    extendedEuclid_1 (6 * 35) (6 * 15) = Some (6 * g, x, y).
Proof.
  split; [lia|]. split; [u64_lit|]. split; [u64_lit|].
  split; [u64_lit|]. split; [u64_lit|].
  apply (X12_common_factor 6 35 15); [lia | u64_lit ..].
Defined.

(** X13 (which output belongs to which operand).  Over the integers,
    the returned coefficients satisfy [A * x + B * y = GCD] when
    [B <= A], and [A * y + B * x = GCD] when [A < B]: after a swap the
    roles of the two outputs are exchanged. *)
Theorem X13_coefficient_roles (A B : Z) :
  in_u64 A -> in_u64 B ->
  exists g x y,
    extendedEuclid A B = Some (g, x, y) /\
    extendedEuclid_1 A B = Some (g, x, y) /\
    (B <= A -> A * x + B * y = g) /\
    (A < B -> A * y + B * x = g).
Proof.
  intros HA HB.
  destruct (extendedEuclid_exact A B HA HB)
    as (g & x & y & E & E1 & _ & Hbez & _).
  exists g, x, y. split; [exact E|]. split; [exact E1|].
  split; intros Hord.
  - rewrite Z.max_l, Z.min_r in Hbez by lia. exact Hbez.
  - rewrite Z.max_r, Z.min_l in Hbez by lia. lia.
Qed.

Lemma X13_witness :
  in_u64 15 /\ in_u64 35 /\
  exists g x y,
    extendedEuclid 15 35 = Some (g, x, y) /\
    extendedEuclid_1 15 35 = Some (g, x, y) /\
    (35 <= 15 -> 15 * x + 35 * y = g) /\
    (15 < 35 -> 15 * y + 35 * x = g).
Proof.
  split; [u64_lit|]. split; [u64_lit|].
  apply (X13_coefficient_roles 15 35); u64_lit.
Defined.
